(** * max_intersections and days_in_month: a shallow embedding

    This development embeds two translation units of the repository:

    - [src/function/aggregate/distributive/max_intersections.cpp], the
      aggregate that stores the intervals it is fed and, on finalization,
      sweeps over their start / end events to find the largest number of
      intervals that overlap in one point;
    - [src/function/scalar/date/days_in_month.cpp], the scalar function set
      [days_in_month].

    Integers of the C++ code are values of [Z]; where the code computes in a
    64-bit signed type the wrap-around is written out with [wrap64].
    Aggregate states are addressed through references in the C++ code; the
    functions of [MaxIntersectionsFunction] are given first as functions on
    state values (explicit state passing), then lifted to a store of states
    indexed by address, where aliasing of references can be expressed. *)

From stdpp Require Import base list sorting gmap strings.
From Stdlib Require Import ZArith Lia.

Local Open Scope Z_scope.

(** ** 64-bit signed integers *)

Definition INT64_MIN : Z := - 2 ^ 63.
Definition INT64_MAX : Z := 2 ^ 63 - 1.

(** Two's complement reduction of an integer to the range of [int64_t]. *)
Definition wrap64 (z : Z) : Z := (z + 2 ^ 63) mod 2 ^ 64 - 2 ^ 63.

(** ** The aggregate state *)

(** [std::pair<int64_t, int64_t>] *)
Definition interval : Type := Z * Z.

(** [struct MaxIntersectionsState { std::vector<std::pair<int64_t, int64_t>> intervals; }] *)
Record MaxIntersectionsState : Type := mkState { intervals : list interval }.

(** [std::pair<int64_t, int32_t>]: position and delta. *)
Definition event : Type := Z * Z.

Module MaxIntersectionsFunction.

(** [Initialize]: placement-new of a state whose vector is empty. *)
Definition Initialize : MaxIntersectionsState := mkState [].

(** [Operation], instantiated by [GetFunction] at [int64_t] for both inputs
    (the casts are the identity): the interval is appended when
    [left <= right], the state is left as it is otherwise. *)
Definition Operation (state : MaxIntersectionsState) (left right : Z)
  : MaxIntersectionsState :=
  if left <=? right
  then mkState (intervals state ++ [(left, right)])
  else state.

(** The loop [for (idx_t i = 0; i < count; i++) emplace_back(interval)]. *)
Fixpoint emplace_back_loop (count : nat) (iv : interval) (v : list interval)
  : list interval :=
  match count with
  | O => v
  | S k => emplace_back_loop k iv (v ++ [iv])
  end.

(** [ConstantOperation]; [reserve] changes the capacity of the vector, not
    its contents. *)
Definition ConstantOperation (state : MaxIntersectionsState) (left right : Z)
  (count : nat) : MaxIntersectionsState :=
  if left <=? right
  then mkState (emplace_back_loop count (left, right) (intervals state))
  else state.

(** [Combine]: the new value of [target], which receives a copy of the
    intervals of [source] after its own; [source] is a const reference. *)
Definition Combine (source target : MaxIntersectionsState)
  : MaxIntersectionsState :=
  match intervals source with
  | [] => target
  | _ :: _ => mkState (intervals target ++ intervals source)
  end.

(** The loop that creates the two events of every interval.  The position
    of the end event is [interval.second + 1] computed in [int64_t]; for an
    end equal to the largest [int64_t] the sum is taken to wrap around. *)
Fixpoint make_events (ivs : list interval) : list event :=
  match ivs with
  | [] => []
  | iv :: rest => (iv.1, 1) :: (wrap64 (iv.2 + 1), -1) :: make_events rest
  end.

(** The comparator handed to [std::sort]. *)
Definition event_less (a b : event) : bool :=
  if a.1 =? b.1 then a.2 <? b.2 else a.1 <? b.1.

(** [std::sort] with [event_less].  The comparator is a strict total order
    on events, so the sorted sequence is determined by the contract of
    [std::sort] alone (see [sort_events_unique] below); an insertion sort
    stands for it. *)
Fixpoint insert_event (e : event) (l : list event) : list event :=
  match l with
  | [] => [e]
  | h :: t => if event_less e h then e :: l else h :: insert_event e t
  end.

Fixpoint sort_events (l : list event) : list event :=
  match l with
  | [] => []
  | e :: t => insert_event e (sort_events t)
  end.

(** The sweep: [current_count] and [max_count] are [int64_t]. *)
Fixpoint sweep (current_count max_count : Z) (events : list event) : Z :=
  match events with
  | [] => max_count
  | ev :: rest =>
      let current_count := wrap64 (current_count + ev.2) in
      let max_count :=
        if current_count >? max_count then current_count else max_count in
      sweep current_count max_count rest
  end.

(** [Finalize]: the value written to [target]. *)
Definition Finalize (state : MaxIntersectionsState) : Z :=
  match intervals state with
  | [] => 0
  | [_] => 1
  | ivs => sweep 0 0 (sort_events (make_events ivs))
  end.

(** [IgnoreNull] *)
Definition IgnoreNull : bool := true.

End MaxIntersectionsFunction.

Import MaxIntersectionsFunction.

(** ** References to states: a store indexed by address

    The aggregate framework hands the functions above references to states
    that live in memory it owns.  A store maps the address of every live
    state to its value; a call reads and writes the states it is given
    references to.  A call on an address that holds no state has no defined
    behaviour and yields [None]; so does [Combine] of a non-empty state into
    itself, which hands [std::vector::insert] a range of the vector it
    inserts into. *)

Definition addr : Type := N.

Abbreviation store := (gmap addr MaxIntersectionsState).

Inductive call : Type :=
| CallInitialize (state : addr)
| CallDestroy (state : addr)
| CallOperation (state : addr) (left right : Z)
| CallConstantOperation (state : addr) (left right : Z) (count : nat)
| CallCombine (source target : addr).

Definition exec_call (c : call) (h : store) : option store :=
  match c with
  | CallInitialize a => Some (<[a := Initialize]> h)
  | CallDestroy a =>
      match h !! a with
      | Some _ => Some (delete a h)
      | None => None
      end
  | CallOperation a l r =>
      match h !! a with
      | Some st => Some (<[a := Operation st l r]> h)
      | None => None
      end
  | CallConstantOperation a l r count =>
      match h !! a with
      | Some st => Some (<[a := ConstantOperation st l r count]> h)
      | None => None
      end
  | CallCombine source target =>
      match h !! source, h !! target with
      | Some src, Some tgt =>
          if bool_decide (source = target) && negb (bool_decide (intervals src = []))
          then None
          else Some (<[target := Combine src tgt]> h)
      | _, _ => None
      end
  end.

Fixpoint exec_calls (cs : list call) (h : store) : option store :=
  match cs with
  | [] => Some h
  | c :: rest =>
      match exec_call c h with
      | Some h' => exec_calls rest h'
      | None => None
      end
  end.

(** [Finalize] on a reference: the state is read, never written. *)
Definition finalize_at (a : addr) (h : store) : option Z :=
  match h !! a with
  | Some st => Some (Finalize st)
  | None => None
  end.

(** ** Vocabulary of the properties *)

(** Feeding the rows of a group to [Operation], one call per row. *)
Definition accumulate (state : MaxIntersectionsState) (rows : list (Z * Z))
  : MaxIntersectionsState :=
  fold_left (fun st row => Operation st row.1 row.2) rows state.

(** [Operation] called [n] times with the same arguments. *)
Fixpoint Operation_times (n : nat) (state : MaxIntersectionsState)
  (left right : Z) : MaxIntersectionsState :=
  match n with
  | O => state
  | S k => Operation_times k (Operation state left right) left right
  end.

(** The rows [Operation] and [ConstantOperation] keep. *)
Definition row_ok (row : Z * Z) : Prop := row.1 <= row.2.

(** The invariant of a state, and of a store of states. *)
Definition state_ok (st : MaxIntersectionsState) : Prop :=
  Forall row_ok (intervals st).

Definition store_ok (h : store) : Prop :=
  map_Forall (fun _ st => state_ok st) h.

(** The intervals of the sweep: both ends are [int64_t] values, the start
    is not after the end, and the end is below the largest [int64_t]. *)
Definition valid_interval (iv : interval) : Prop :=
  INT64_MIN <= iv.1 /\ iv.1 <= iv.2 /\ iv.2 < INT64_MAX.

(** Number of intervals, with multiplicity, that contain the point [p]. *)
Definition overlap_at (ivs : list interval) (p : Z) : nat :=
  length (filter (fun iv : interval => iv.1 <= p <= iv.2) ivs).

(** [m] is the largest value [overlap_at ivs] takes over the integers. *)
Definition is_max_overlap (ivs : list interval) (m : Z) : Prop :=
  (exists p : Z, Z.of_nat (overlap_at ivs p) = m) /\
  (forall p : Z, Z.of_nat (overlap_at ivs p) <= m).

(** A parallel aggregation: every group of rows is accumulated into a state of
    its own, and states are merged pairwise, the first into the second, until
    one is left. *)
Inductive merge_plan : Type :=
| Group (rows : list (Z * Z))
| Merge (source target : merge_plan).

Fixpoint run_plan (p : merge_plan) : MaxIntersectionsState :=
  match p with
  | Group rows => accumulate Initialize rows
  | Merge source target => Combine (run_plan source) (run_plan target)
  end.

Fixpoint plan_rows (p : merge_plan) : list (Z * Z) :=
  match p with
  | Group rows => rows
  | Merge source target => plan_rows source ++ plan_rows target
  end.

(** [b] is not ordered before [a] by the comparator: what [std::sort]
    guarantees for every [a] that precedes [b] in its output. *)
Definition event_le (a b : event) : Prop := event_less b a = false.

(** Sum of the deltas of a sequence of events. *)
Fixpoint sum_deltas (l : list event) : Z :=
  match l with
  | [] => 0
  | ev :: rest => ev.2 + sum_deltas rest
  end.

(** The events at or before the point [p]. *)
Definition events_upto (p : Z) (l : list event) : list event :=
  filter (fun ev : event => ev.1 <= p) l.

Definition unit_delta (ev : event) : Prop := ev.2 = 1 \/ ev.2 = -1.

(** Number of events of a sequence with delta [+1], and with delta [-1]. *)
Definition starts (l : list event) : nat :=
  length (filter (fun ev : event => ev.2 = 1) l).

Definition ends (l : list event) : nat :=
  length (filter (fun ev : event => ev.2 = -1) l).

(** The sweep over unbounded integers. *)
Fixpoint sweep_unbounded (current_count max_count : Z) (events : list event) : Z :=
  match events with
  | [] => max_count
  | ev :: rest =>
      sweep_unbounded (current_count + ev.2)
        (Z.max max_count (current_count + ev.2)) rest
  end.

(** ** days_in_month *)

Inductive LogicalType : Type := INTEGER | DATE | TIMESTAMP | TIME.

Global Instance LogicalType_eq_dec : EqDecision LogicalType.
Proof. solve_decision. Defined.

Inductive Exception : Type :=
| InvalidInputException (msg : string)
| InternalException (msg : string).

(** A column of a chunk: one entry per row, [None] for NULL.  Values of
    [int32_t], [date_t], [timestamp_t] and [dtime_t] are all integers. *)
Definition Vector : Type := list (option Z).

Record DataChunk : Type := mkChunk { data : list Vector; size : nat }.

(** What a scalar function leaves behind: the result vector, or the exception
    it threw. *)
Definition outcome : Type := Exception + Vector.

Module DaysInMonth.
Section Functions.

(** Calendar helpers and vector executors of the engine, declared in the
    headers the file includes. *)
Variable ExpressionState : Type.
Variable Date_MonthDays : Z -> Z -> Z.
Variable Date_Convert : Z -> Z * Z * Z.
Variable Timestamp_GetDate : Z -> Z.
Variable UnaryExecutor_Execute : (Z -> Z) -> Vector -> nat -> Vector.
Variable BinaryExecutor_Execute :
  (Z -> Z -> Z) -> Vector -> Vector -> nat -> Vector.

Definition GetDaysInMonth (year month : Z) : Z := Date_MonthDays year month.

Definition GetDaysInMonthFromDate (date : Z) : Z :=
  let '(year, month, _) := Date_Convert date in GetDaysInMonth year month.

Definition GetDaysInMonthFromTimestamp (timestamp : Z) : Z :=
  GetDaysInMonthFromDate (Timestamp_GetDate timestamp).

(** [D_ASSERT(args.ColumnCount() == n)] is the match on the columns of the
    chunk: a failed assertion raises an [InternalException]. *)
Definition DaysInMonthBinaryFunction (args : DataChunk)
  (state : ExpressionState) : outcome :=
  match data args with
  | [year_vector; month_vector] =>
      inr (BinaryExecutor_Execute GetDaysInMonth year_vector month_vector
             (size args))
  | _ => inl (InternalException "Assertion triggered: args.ColumnCount() == 2")
  end.

Definition DaysInMonthDateFunction (args : DataChunk)
  (state : ExpressionState) : outcome :=
  match data args with
  | [date_vector] =>
      inr (UnaryExecutor_Execute GetDaysInMonthFromDate date_vector (size args))
  | _ => inl (InternalException "Assertion triggered: args.ColumnCount() == 1")
  end.

Definition DaysInMonthTimestampFunction (args : DataChunk)
  (state : ExpressionState) : outcome :=
  match data args with
  | [timestamp_vector] =>
      inr (UnaryExecutor_Execute GetDaysInMonthFromTimestamp timestamp_vector
             (size args))
  | _ => inl (InternalException "Assertion triggered: args.ColumnCount() == 1")
  end.

Definition DaysInMonthTimeFunction (args : DataChunk)
  (state : ExpressionState) : outcome :=
  inl (InvalidInputException
         "days_in_month cannot be used with TIME type - TIME does not contain date information").

Record ScalarFunction : Type := mkScalarFunction {
  arguments : list LogicalType;
  return_type : LogicalType;
  function : DataChunk -> ExpressionState -> outcome
}.

Record ScalarFunctionSet : Type := mkScalarFunctionSet {
  name : string;
  functions : list ScalarFunction
}.

Definition AddFunction (set : ScalarFunctionSet) (f : ScalarFunction)
  : ScalarFunctionSet :=
  mkScalarFunctionSet (name set) (functions set ++ [f]).

Definition GetFunctions : ScalarFunctionSet :=
  let set := mkScalarFunctionSet "days_in_month" [] in
  let set := AddFunction set
    (mkScalarFunction [INTEGER; INTEGER] INTEGER DaysInMonthBinaryFunction) in
  let set := AddFunction set
    (mkScalarFunction [DATE] INTEGER DaysInMonthDateFunction) in
  let set := AddFunction set
    (mkScalarFunction [TIMESTAMP] INTEGER DaysInMonthTimestampFunction) in
  let set := AddFunction set
    (mkScalarFunction [TIME] INTEGER DaysInMonthTimeFunction) in
  set.

(** A call whose argument types are exactly the declared argument types of
    an overload runs that overload. *)
Definition select_overload (set : ScalarFunctionSet)
  (types : list LogicalType) : option ScalarFunction :=
  List.find (fun f => bool_decide (arguments f = types)) (functions set).

Definition invoke (set : ScalarFunctionSet) (types : list LogicalType)
  (args : DataChunk) (state : ExpressionState) : option outcome :=
  match select_overload set types with
  | Some f => Some (function f args state)
  | None => None
  end.

End Functions.
End DaysInMonth.

(** ** Vocabulary of the further properties *)

(** A state the sweep handles without wrap-around: every interval is a
    [valid_interval] and their number fits the [int64_t] counter. *)
Definition valid_state (st : MaxIntersectionsState) : Prop :=
  Forall valid_interval (intervals st) /\
  Z.of_nat (length (intervals st)) <= INT64_MAX.

(** The interval moved by [k]. *)
Definition shift_interval (k : Z) (iv : interval) : interval :=
  (iv.1 + k, iv.2 + k).

(** The address of the state a call writes: its [state], or the [target] of
    [Combine]. *)
Definition call_writes (c : call) : addr :=
  match c with
  | CallInitialize a => a
  | CallDestroy a => a
  | CallOperation a _ _ => a
  | CallConstantOperation a _ _ _ => a
  | CallCombine _ target => target
  end.

(** * Properties *)

Example Finalize_four_intervals :
  Finalize (mkState [(1, 3); (2, 6); (4, 5); (8, 9)]) = 2.
Proof. reflexivity. Qed.

(** With an end at the largest [int64_t] the end event wraps to the smallest
    position and is swept before every start: the bound on the ends in
    [valid_interval] cannot be dropped. *)
Example Finalize_end_at_INT64_MAX :
  Finalize (mkState [(0, INT64_MAX); (0, INT64_MAX)]) = 0.
Proof. reflexivity. Qed.

(** ** The order of the events and the contract of the sort *)


Section EventOrder.

Lemma event_less_spec (a b : event) :
  event_less a b = true <-> a.1 < b.1 \/ (a.1 = b.1 /\ a.2 < b.2).
Proof.
  unfold event_less. destruct (Z.eqb_spec a.1 b.1) as [Heq | Hne].
  - rewrite Z.ltb_lt. lia.
  - rewrite Z.ltb_lt. lia.
Qed.

Lemma event_le_spec (a b : event) :
  event_le a b <-> a.1 < b.1 \/ (a.1 = b.1 /\ a.2 <= b.2).
Proof.
  unfold event_le. rewrite <- not_true_iff_false, event_less_spec. lia.
Qed.

Lemma event_less_le (a b : event) : event_less a b = true -> event_le a b.
Proof. rewrite event_less_spec, event_le_spec. lia. Qed.

Lemma event_not_less_le (a b : event) : event_less a b = false -> event_le b a.
Proof. done. Qed.

Global Instance event_le_trans : Transitive event_le.
Proof. intros a b c. rewrite !event_le_spec. lia. Qed.

Global Instance event_le_antisymm : AntiSymm (=) event_le.
Proof.
  intros [p d] [q e]. rewrite !event_le_spec. simpl. intros H1 H2.
  f_equal; lia.
Qed.

Lemma insert_event_Permutation (e : event) (l : list event) :
  insert_event e l ≡ₚ e :: l.
Proof.
  induction l as [| h t IH]; simpl; [done |].
  destruct (event_less e h); [done |].
  rewrite IH. apply Permutation_swap.
Qed.

Lemma sort_events_Permutation (l : list event) : sort_events l ≡ₚ l.
Proof.
  induction l as [| e t IH]; simpl; [done |].
  by rewrite insert_event_Permutation, IH.
Qed.

Lemma insert_event_sorted (e : event) (l : list event) :
  StronglySorted event_le l -> StronglySorted event_le (insert_event e l).
Proof.
  induction 1 as [| h t Ht IH Hh]; simpl.
  - repeat constructor.
  - destruct (event_less e h) eqn:Hlt.
    + apply event_less_le in Hlt. constructor.
      * by constructor.
      * constructor; [done |].
        eapply Forall_impl; [exact Hh |]. intros x Hx. by etrans.
    + constructor; [done |].
      rewrite insert_event_Permutation. by constructor.
Qed.

Lemma sort_events_sorted (l : list event) :
  StronglySorted event_le (sort_events l).
Proof.
  induction l as [| e t IH]; simpl; [constructor |].
  by apply insert_event_sorted.
Qed.

(** Every output that [std::sort] may produce for [l], a permutation of [l]
    in which no element is ordered before one of its predecessors, is the
    sequence [sort_events l]. *)
Lemma sort_events_unique (l s : list event) :
  s ≡ₚ l -> StronglySorted event_le s -> s = sort_events l.
Proof.
  intros Hperm Hs.
  apply (StronglySorted_unique event_le); [done | apply sort_events_sorted |].
  by rewrite sort_events_Permutation.
Qed.

Lemma sort_events_proper (l l' : list event) :
  l ≡ₚ l' -> sort_events l = sort_events l'.
Proof.
  intros Hperm. apply sort_events_unique; [| apply sort_events_sorted].
  by rewrite sort_events_Permutation.
Qed.

Lemma make_events_app (l1 l2 : list interval) :
  make_events (l1 ++ l2) = make_events l1 ++ make_events l2.
Proof. induction l1 as [| iv t IH]; simpl; [done | by rewrite IH]. Qed.

Lemma make_events_Permutation (l l' : list interval) :
  l ≡ₚ l' -> make_events l ≡ₚ make_events l'.
Proof.
  induction 1 as [| x l l' _ IH | x y l | l l' l'' _ IH1 _ IH2]; simpl.
  - done.
  - by rewrite IH.
  - change (?a :: ?b :: ?c :: ?d :: ?r) with ([a; b] ++ [c; d] ++ r).
    apply Permutation_app_swap_app.
  - by etrans.
Qed.

End EventOrder.

(** ** Finalize depends on the multiset of intervals only *)

Lemma Finalize_Permutation (s t : MaxIntersectionsState) :
  intervals s ≡ₚ intervals t -> Finalize s = Finalize t.
Proof.
  intros Hperm. unfold Finalize.
  pose proof (Permutation_length Hperm) as Hlen.
  destruct (intervals s) as [| a [| b l]] eqn:Hs;
    destruct (intervals t) as [| a' [| b' l']] eqn:Ht; simpl in Hlen; try lia;
    try done.
  f_equal. apply sort_events_proper.
  by apply (make_events_Permutation (a :: b :: l) (a' :: b' :: l')).
Qed.

(** ** Contents of a state after the operations *)

Lemma intervals_Operation (state : MaxIntersectionsState) (left right : Z) :
  intervals (Operation state left right) =
  intervals state ++ filter row_ok [(left, right)].
Proof.
  unfold Operation, row_ok. rewrite filter_cons, filter_nil. simpl.
  destruct (Z.leb_spec left right); case_decide; try lia; simpl; [done |].
  by rewrite app_nil_r.
Qed.

Lemma intervals_accumulate (rows : list (Z * Z)) (state : MaxIntersectionsState) :
  intervals (accumulate state rows) = intervals state ++ filter row_ok rows.
Proof.
  revert state. induction rows as [| [l r] rows IH]; intros state; simpl.
  - by rewrite filter_nil, app_nil_r.
  - unfold accumulate in *. simpl. rewrite IH, intervals_Operation.
    rewrite <- app_assoc. f_equal.
    by rewrite (filter_app _ [(l, r)] rows).
Qed.

Lemma intervals_Combine (source target : MaxIntersectionsState) :
  intervals (Combine source target) = intervals target ++ intervals source.
Proof.
  unfold Combine. destruct (intervals source); [by rewrite app_nil_r | done].
Qed.

Lemma emplace_back_loop_replicate (count : nat) (iv : interval) (v : list interval) :
  emplace_back_loop count iv v = v ++ replicate count iv.
Proof.
  revert v. induction count as [| k IH]; intros v; simpl.
  - by rewrite app_nil_r.
  - rewrite IH, <- app_assoc. done.
Qed.

Lemma ConstantOperation_Operation_times (n : nat) (state : MaxIntersectionsState)
  (left right : Z) :
  ConstantOperation state left right n = Operation_times n state left right.
Proof.
  unfold ConstantOperation. revert state.
  induction n as [| k IH]; intros state; simpl.
  - destruct state. by destruct (left <=? right).
  - rewrite <- IH. unfold Operation.
    destruct (left <=? right); simpl; done.
Qed.

Lemma intervals_run_plan (p : merge_plan) :
  intervals (run_plan p) ≡ₚ filter row_ok (plan_rows p).
Proof.
  induction p as [rows | source IHs target IHt]; simpl.
  - by rewrite intervals_accumulate.
  - rewrite intervals_Combine, filter_app, IHs, IHt.
    apply Permutation_app_comm.
Qed.

(** ** The invariant of the store *)

Lemma state_ok_Initialize : state_ok Initialize.
Proof. constructor. Qed.

Lemma state_ok_Operation (st : MaxIntersectionsState) (left right : Z) :
  state_ok st -> state_ok (Operation st left right).
Proof.
  unfold state_ok. rewrite intervals_Operation, Forall_app.
  intros Hst. split; [done |]. apply Forall_forall. intros x Hx.
  by apply list_elem_of_filter in Hx as [Hx _].
Qed.

Lemma state_ok_ConstantOperation (st : MaxIntersectionsState) (left right : Z)
  (count : nat) :
  state_ok st -> state_ok (ConstantOperation st left right count).
Proof.
  rewrite ConstantOperation_Operation_times. revert st.
  induction count as [| k IH]; intros st Hst; simpl; [done |].
  by apply IH, state_ok_Operation.
Qed.

Lemma state_ok_Combine (source target : MaxIntersectionsState) :
  state_ok source -> state_ok target -> state_ok (Combine source target).
Proof.
  unfold state_ok. rewrite intervals_Combine, Forall_app. done.
Qed.

Lemma store_ok_exec_call (c : call) (h h' : store) :
  store_ok h -> exec_call c h = Some h' -> store_ok h'.
Proof.
  unfold store_ok. intros Hh Hexec. destruct c as [a | a | a l r | a l r n | s t];
    simpl in Hexec.
  - simplify_eq. apply map_Forall_insert_2; [apply state_ok_Initialize | done].
  - destruct (h !! a); simplify_eq. by apply map_Forall_delete.
  - destruct (h !! a) as [st |] eqn:Ha; simplify_eq.
    apply map_Forall_insert_2; [| done].
    apply state_ok_Operation. exact (Hh a st Ha).
  - destruct (h !! a) as [st |] eqn:Ha; simplify_eq.
    apply map_Forall_insert_2; [| done].
    apply state_ok_ConstantOperation. exact (Hh a st Ha).
  - destruct (h !! s) as [src |] eqn:Hs; [| done].
    destruct (h !! t) as [tgt |] eqn:Ht; [| done].
    destruct (_ && _); simplify_eq.
    apply map_Forall_insert_2; [| done].
    apply state_ok_Combine; [exact (Hh s src Hs) | exact (Hh t tgt Ht)].
Qed.

Lemma store_ok_exec_calls (cs : list call) (h h' : store) :
  store_ok h -> exec_calls cs h = Some h' -> store_ok h'.
Proof.
  revert h. induction cs as [| c cs IH]; intros h Hh Hexec; simpl in Hexec.
  - by simplify_eq.
  - destruct (exec_call c h) as [h1 |] eqn:Hc; [| done].
    eapply IH; [| exact Hexec]. by eapply store_ok_exec_call.
Qed.

(** ** Properties of the aggregate *)

(** C2. However the rows are split into groups, and in whatever order and
    grouping the states of the groups are merged into one, [Finalize] on the
    merged state gives what it gives on a single state that was fed all the
    rows, in any order. *)
Theorem Finalize_merge_plan (p : merge_plan) (all : list (Z * Z)) :
  all ≡ₚ plan_rows p ->
  Finalize (run_plan p) = Finalize (accumulate Initialize all).
Proof.
  intros Hall. apply Finalize_Permutation.
  rewrite intervals_run_plan, intervals_accumulate. simpl.
  by rewrite Hall.
Qed.

Lemma Finalize_merge_plan_witness :
  Finalize
    (run_plan
       (Merge (Merge (Group [(4, 5); (9, 2)]) (Group [(1, 3)]))
              (Merge (Group []) (Group [(2, 6); (8, 9)])))) =
  Finalize (accumulate Initialize [(1, 3); (2, 6); (9, 2); (4, 5); (8, 9)]).
Proof.
  apply Finalize_merge_plan. simpl.
  change [(1, 3); (2, 6); (9, 2); (4, 5); (8, 9)]
    with ([(1, 3)] ++ [(2, 6)] ++ [(9, 2)] ++ [(4, 5)] ++ [(8, 9)]).
  change [(4, 5); (9, 2); (1, 3); (2, 6); (8, 9)]
    with ([(4, 5)] ++ [(9, 2)] ++ [(1, 3)] ++ [(2, 6)] ++ [(8, 9)]).
  solve_Permutation.
Defined.

(** C3. The intervals (1, 5) and (6, 10) finalize to 1; the intervals (1, 5)
    and (5, 10), which share the point 5, finalize to 2. *)
Theorem Finalize_touching_intervals :
  Finalize (mkState [(1, 5); (6, 10)]) = 1 /\
  Finalize (mkState [(1, 5); (5, 10)]) = 2.
Proof. split; reflexivity. Qed.

(** C4. [Operation] with [left > right] returns the state it was given, and so
    the finalized result is that of the state without the call. *)
Theorem Operation_invalid_unchanged (state : MaxIntersectionsState)
  (left right : Z) :
  left > right ->
  Operation state left right = state /\
  Finalize (Operation state left right) = Finalize state.
Proof.
  intros Hgt. assert (Operation state left right = state) as ->; [| done].
  unfold Operation. destruct (Z.leb_spec left right); [lia | done].
Qed.

Lemma Operation_invalid_unchanged_witness :
  Operation (mkState [(1, 5); (2, 3)]) 7 4 = mkState [(1, 5); (2, 3)] /\
  Finalize (Operation (mkState [(1, 5); (2, 3)]) 7 4) =
  Finalize (mkState [(1, 5); (2, 3)]).
Proof. apply Operation_invalid_unchanged. lia. Defined.

(** C5. [Finalize] on a state that was initialized and never fed returns 0,
    for the state value and for a freshly initialized state in a store. *)
Theorem Finalize_Initialize :
  Finalize Initialize = 0 /\
  forall (h : store) (a : addr),
    exists h', exec_call (CallInitialize a) h = Some h' /\
               finalize_at a h' = Some 0.
Proof.
  split; [done |]. intros h a. eexists. split; [done |].
  unfold finalize_at. by rewrite lookup_insert_eq.
Qed.

(** C6. A state that holds one interval with [left <= right] and nothing else
    finalizes to 1. *)
Theorem Finalize_single_interval (left right : Z) :
  left <= right ->
  Finalize (Operation Initialize left right) = 1.
Proof.
  intros Hle. unfold Operation.
  destruct (Z.leb_spec left right); [done | lia].
Qed.

Lemma Finalize_single_interval_witness :
  Finalize (Operation Initialize 3 INT64_MAX) = 1.
Proof. apply Finalize_single_interval. unfold INT64_MAX. lia. Defined.

(** C7. [ConstantOperation] with count [n] leaves the state that [n] calls of
    [Operation] with the same arguments leave, so the finalized results are
    the same. *)
Theorem Finalize_ConstantOperation (state : MaxIntersectionsState)
  (left right : Z) (n : nat) :
  Finalize (ConstantOperation state left right n) =
  Finalize (Operation_times n state left right).
Proof. by rewrite ConstantOperation_Operation_times. Qed.

(** C8. In every store reached from the empty store by calls of [Initialize],
    [Destroy], [Operation], [ConstantOperation] and [Combine], every interval
    of every state has its start at or before its end. *)
Theorem stored_intervals_ordered (cs : list call) (h : store) (a : addr)
  (st : MaxIntersectionsState) (iv : interval) :
  exec_calls cs ∅ = Some h ->
  h !! a = Some st ->
  iv ∈ intervals st ->
  iv.1 <= iv.2.
Proof.
  intros Hexec Ha Hiv.
  assert (store_ok h) as Hok.
  { eapply store_ok_exec_calls; [| exact Hexec]. apply map_Forall_empty. }
  pose proof (Hok a st Ha) as Hst. unfold state_ok in Hst.
  rewrite Forall_forall in Hst. by apply Hst.
Qed.

Lemma stored_intervals_ordered_witness :
  exec_calls
    [CallInitialize 1%N; CallInitialize 2%N;
     CallOperation 1%N 2 5; CallOperation 1%N 9 3;
     CallConstantOperation 2%N 4 4 3; CallCombine 1%N 2%N] ∅
  = Some (<[2%N := mkState [(4, 4); (4, 4); (4, 4); (2, 5)]]>
            (<[1%N := mkState [(2, 5)]]> ∅)) /\
  (2, 5).1 <= (2, 5).2.
Proof.
  assert (exec_calls
    [CallInitialize 1%N; CallInitialize 2%N;
     CallOperation 1%N 2 5; CallOperation 1%N 9 3;
     CallConstantOperation 2%N 4 4 3; CallCombine 1%N 2%N] ∅
  = Some (<[2%N := mkState [(4, 4); (4, 4); (4, 4); (2, 5)]]>
            (<[1%N := mkState [(2, 5)]]> ∅))) as Hexec
    by (vm_compute; reflexivity).
  split; [exact Hexec |].
  apply (stored_intervals_ordered _ _ 2%N
           (mkState [(4, 4); (4, 4); (4, 4); (2, 5)]) (2, 5) Hexec).
  - vm_compute. reflexivity.
  - simpl. set_solver.
Defined.

(** C9. [Combine] leaves the source as it was: whenever the call is defined
    (source and target are live states, and they are two different states or
    the source is empty), the source holds after the call the intervals it
    held before, in the same order; a distinct target has received a copy of
    them after its own. *)
Theorem Combine_source_unchanged (h : store) (source target : addr)
  (src tgt : MaxIntersectionsState) :
  h !! source = Some src ->
  h !! target = Some tgt ->
  source <> target \/ intervals src = [] ->
  exists h',
    exec_call (CallCombine source target) h = Some h' /\
    h' !! source = Some src /\
    (intervals <$> h' !! target) = Some (intervals tgt ++ intervals src).
Proof.
  intros Hs Ht Hdef. simpl. rewrite Hs, Ht.
  destruct (decide (source = target)) as [-> | Hne].
  - destruct Hdef as [Hne | Hempty]; [done |].
    assert (src = tgt) as -> by congruence.
    rewrite (bool_decide_eq_true_2 _ Hempty), andb_false_r.
    eexists. split; [done |]. rewrite lookup_insert_eq.
    unfold Combine. rewrite Hempty. split; [done |]. simpl.
    by rewrite Hempty.
  - rewrite (bool_decide_eq_false_2 _ Hne). simpl.
    eexists. split; [done |].
    rewrite lookup_insert_ne, lookup_insert_eq by done.
    split; [done |]. simpl. by rewrite intervals_Combine.
Qed.

Lemma Combine_source_unchanged_witness :
  exists h' : store,
    exec_call (CallCombine 1%N 2%N)
      (<[2%N := mkState [(4, 4)]]> (<[1%N := mkState [(2, 5); (1, 3)]]> ∅))
    = Some h' /\
    h' !! 1%N = Some (mkState [(2, 5); (1, 3)]) /\
    (intervals <$> h' !! 2%N) = Some ([(4, 4)] ++ [(2, 5); (1, 3)]).
Proof.
  apply (Combine_source_unchanged
           (<[2%N := mkState [(4, 4)]]> (<[1%N := mkState [(2, 5); (1, 3)]]> ∅))
           1%N 2%N (mkState [(2, 5); (1, 3)]) (mkState [(4, 4)])).
  - vm_compute. reflexivity.
  - vm_compute. reflexivity.
  - left. done.
Defined.

(** ** The sweep computes the largest overlap *)

Lemma wrap64_id (z : Z) : INT64_MIN <= z <= INT64_MAX -> wrap64 z = z.
Proof.
  unfold INT64_MIN, INT64_MAX, wrap64. intros Hz.
  rewrite Z.mod_small; lia.
Qed.

Lemma sum_deltas_app (l1 l2 : list event) :
  sum_deltas (l1 ++ l2) = sum_deltas l1 + sum_deltas l2.
Proof. induction l1 as [| ev l1 IH]; simpl; lia. Qed.

Lemma sum_deltas_Permutation (l l' : list event) :
  l ≡ₚ l' -> sum_deltas l = sum_deltas l'.
Proof. induction 1; simpl; lia. Qed.

Lemma sum_deltas_nonneg (l : list event) :
  Forall (fun ev : event => 0 <= ev.2) l -> 0 <= sum_deltas l.
Proof. induction 1; simpl; lia. Qed.

Lemma events_upto_Permutation (p : Z) (l l' : list event) :
  l ≡ₚ l' -> events_upto p l ≡ₚ events_upto p l'.
Proof. intros Hperm. unfold events_upto. by rewrite Hperm. Qed.

Lemma events_upto_none (p : Z) (l : list event) :
  Forall (fun ev : event => p < ev.1) l -> events_upto p l = [].
Proof.
  unfold events_upto. induction 1 as [| ev l Hev _ IH]; [done |].
  rewrite filter_cons. case_decide; [lia | done].
Qed.

Lemma events_upto_all (p : Z) (l : list event) :
  Forall (fun ev : event => ev.1 <= p) l -> events_upto p l = l.
Proof.
  unfold events_upto. induction 1 as [| ev l Hev _ IH]; [done |].
  rewrite filter_cons. case_decide; [by rewrite IH | lia].
Qed.

(** The events at or before [p] sum to the number of intervals over [p]. *)
Lemma sum_deltas_make_events (p : Z) (ivs : list interval) :
  Forall valid_interval ivs ->
  sum_deltas (events_upto p (make_events ivs)) = Z.of_nat (overlap_at ivs p).
Proof.
  unfold events_upto, overlap_at.
  induction 1 as [| [a b] ivs [Hmin [Hab Hmax]] _ IH]; [done |].
  simpl in Hmin, Hab, Hmax. simpl make_events.
  rewrite wrap64_id by (unfold INT64_MIN, INT64_MAX in *; lia).
  rewrite !filter_cons. simpl.
  repeat case_decide; simpl; lia.
Qed.

Lemma make_events_unit_delta (ivs : list interval) :
  Forall unit_delta (make_events ivs).
Proof.
  induction ivs as [| iv ivs IH]; simpl; [constructor |].
  constructor; [by left |]. constructor; [by right | done].
Qed.

Lemma starts_make_events (ivs : list interval) :
  starts (make_events ivs) = length ivs.
Proof.
  unfold starts. induction ivs as [| iv ivs IH]; [done |].
  simpl make_events. rewrite !filter_cons. simpl.
  repeat case_decide; simpl; lia.
Qed.

Lemma ends_make_events (ivs : list interval) :
  ends (make_events ivs) = length ivs.
Proof.
  unfold ends. induction ivs as [| iv ivs IH]; [done |].
  simpl make_events. rewrite !filter_cons. simpl.
  repeat case_decide; simpl; lia.
Qed.

Lemma starts_Permutation (l l' : list event) : l ≡ₚ l' -> starts l = starts l'.
Proof. intros Hperm. unfold starts. by rewrite Hperm. Qed.

Lemma ends_Permutation (l l' : list event) : l ≡ₚ l' -> ends l = ends l'.
Proof. intros Hperm. unfold ends. by rewrite Hperm. Qed.

(** While the counter stays between minus the number of end events and the
    number of start events still to come, no addition of the sweep wraps. *)
Lemma sweep_no_wrap (l : list event) (c m : Z) :
  Forall unit_delta l ->
  INT64_MIN <= c - Z.of_nat (ends l) ->
  c + Z.of_nat (starts l) <= INT64_MAX ->
  sweep c m l = sweep_unbounded c m l.
Proof.
  intros Hl. revert c m. unfold starts, ends.
  induction Hl as [| [q d] l Hd _ IH]; intros c m Hlo Hhi; [done |].
  rewrite !filter_cons in Hlo, Hhi. unfold unit_delta in Hd. simpl in *.
  assert (INT64_MIN <= c + d <= INT64_MAX) as Hrange.
  { destruct Hd as [-> | ->]; repeat case_decide; simpl in *; lia. }
  rewrite (wrap64_id _ Hrange).
  assert ((if c + d >? m then c + d else m) = Z.max m (c + d)) as ->.
  { rewrite Z.gtb_ltb. destruct (Z.ltb_spec m (c + d)); lia. }
  apply IH; destruct Hd as [-> | ->]; repeat case_decide; simpl in *; lia.
Qed.

Lemma sweep_unbounded_ge_max (l : list event) (c m : Z) :
  m <= sweep_unbounded c m l.
Proof.
  revert c m. induction l as [| ev l IH]; intros c m; simpl; [lia |].
  etrans; [| apply IH]. lia.
Qed.

(** The result of the sweep is at least the counter after every prefix. *)
Lemma sweep_unbounded_ge_prefix (l1 l2 : list event) (c m : Z) :
  c <= m ->
  c + sum_deltas l1 <= sweep_unbounded c m (l1 ++ l2).
Proof.
  revert c m. induction l1 as [| ev l1 IH]; intros c m Hcm; simpl.
  - pose proof (sweep_unbounded_ge_max l2 c m). lia.
  - rewrite Z.add_assoc. apply IH. lia.
Qed.

(** The result of the sweep is the initial maximum, or the counter right
    after a start event. *)
Lemma sweep_unbounded_attained (l : list event) (c m : Z) :
  Forall unit_delta l ->
  c <= m ->
  sweep_unbounded c m l = m \/
  exists l1 ev l2,
    l = l1 ++ ev :: l2 /\ ev.2 = 1 /\
    c + sum_deltas l1 + 1 = sweep_unbounded c m l.
Proof.
  intros Hl. revert c m.
  induction Hl as [| ev l Hd _ IH]; intros c m Hcm; simpl; [by left |].
  destruct (IH (c + ev.2) (Z.max m (c + ev.2)) ltac:(lia))
    as [Hmax | (l1 & ev' & l2 & -> & Hev' & Hsum)].
  - destruct (Z.max_spec m (c + ev.2)) as [[Hlt Heq] | [Hge Heq]].
    + right. exists [], ev, l. simpl.
      destruct Hd as [Hd | Hd]; [| lia].
      repeat split; [done | lia].
    + left. lia.
  - right. exists (ev :: l1), ev', l2. simpl. repeat split; [done | lia].
Qed.

(** In a sorted sequence the events at or before [p] are a prefix. *)
Lemma events_upto_prefix (p : Z) (s : list event) :
  StronglySorted event_le s ->
  exists rest, s = events_upto p s ++ rest.
Proof.
  induction 1 as [| ev s _ [rest IH] Hev]; [by exists [] |].
  unfold events_upto in *. rewrite filter_cons. case_decide as Hp.
  - exists rest. simpl. by rewrite <- IH.
  - exists (ev :: s). fold (events_upto p s).
    rewrite (events_upto_none p s); [done |].
    eapply Forall_impl; [exact Hev |].
    intros x Hx. apply event_le_spec in Hx. lia.
Qed.

Lemma sweep_unbounded_upper (p : Z) (s : list event) :
  StronglySorted event_le s ->
  sum_deltas (events_upto p s) <= sweep_unbounded 0 0 s.
Proof.
  intros Hs. destruct (events_upto_prefix p s Hs) as [rest Hrest].
  rewrite Hrest at 2.
  pose proof (sweep_unbounded_ge_prefix (events_upto p s) rest 0 0). lia.
Qed.

(** The result of the sweep over a sorted sequence is 0 or the sum of the
    events at or before some point. *)
Lemma sweep_unbounded_reached (s : list event) :
  StronglySorted event_le s ->
  Forall unit_delta s ->
  sweep_unbounded 0 0 s = 0 \/
  exists p, sum_deltas (events_upto p s) = sweep_unbounded 0 0 s.
Proof.
  intros Hs Hunit.
  destruct (sweep_unbounded_attained s 0 0 Hunit ltac:(lia))
    as [H0 | (l1 & ev & l2 & Heq & Hev & Hsum)]; [by left |].
  right. exists ev.1.
  pose proof (sweep_unbounded_upper ev.1 s Hs) as Hupper.
  rewrite <- Hsum in *. subst s.
  apply StronglySorted_app in Hs as (Hcross & _ & Htail).
  apply StronglySorted_cons in Htail as [Hl2 _].
  unfold events_upto in *. rewrite filter_app in *.
  fold (events_upto ev.1 l1) in *. rewrite events_upto_all in *.
  2, 3: apply Forall_forall; intros x Hx;
    specialize (Hcross x ev Hx ltac:(left));
    apply event_le_spec in Hcross; lia.
  rewrite filter_cons in *. case_decide; [| lia].
  rewrite sum_deltas_app in *. simpl in *.
  assert (0 <= sum_deltas (filter (fun x : event => x.1 <= ev.1) l2)).
  { apply sum_deltas_nonneg, Forall_forall. intros x Hx.
    apply list_elem_of_filter in Hx as [Hpos Hx].
    rewrite Forall_forall in Hl2. specialize (Hl2 x Hx).
    apply event_le_spec in Hl2. lia. }
  lia.
Qed.

Lemma overlap_at_le_length (ivs : list interval) (p : Z) :
  (overlap_at ivs p <= length ivs)%nat.
Proof. unfold overlap_at. apply length_filter. Qed.

Lemma Finalize_sweep_unbounded (ivs : list interval) :
  (2 <= length ivs)%nat ->
  Z.of_nat (length ivs) <= INT64_MAX ->
  Finalize (mkState ivs) =
  sweep_unbounded 0 0 (sort_events (make_events ivs)).
Proof.
  intros Hlen Hmax. unfold Finalize. simpl.
  destruct ivs as [| a [| b ivs]]; simpl in Hlen; try lia.
  pose proof (sort_events_Permutation (make_events (a :: b :: ivs))) as Hperm.
  apply sweep_no_wrap.
  - rewrite Hperm. apply make_events_unit_delta.
  - rewrite (ends_Permutation _ _ Hperm), ends_make_events.
    unfold INT64_MIN, INT64_MAX in *. lia.
  - rewrite (starts_Permutation _ _ Hperm), starts_make_events. lia.
Qed.

Lemma Finalize_is_max_overlap (ivs : list interval) :
  ivs <> [] ->
  Forall valid_interval ivs ->
  Z.of_nat (length ivs) <= INT64_MAX ->
  is_max_overlap ivs (Finalize (mkState ivs)).
Proof.
  intros Hne Hvalid Hmax.
  destruct ivs as [| a [| b ivs]]; [done | |].
  - (* the fast path *)
    split.
    + exists a.1. apply Forall_inv in Hvalid as (_ & Hab & _).
      unfold overlap_at. rewrite filter_cons. by case_decide; [| lia].
    + intros p. pose proof (overlap_at_le_length [a] p). simpl in *.
      change (Finalize {| intervals := [a] |}) with 1. lia.
  - set (l := a :: b :: ivs) in *.
    rewrite Finalize_sweep_unbounded by (done || simpl; lia).
    pose proof (sort_events_Permutation (make_events l)) as Hperm.
    pose proof (sort_events_sorted (make_events l)) as Hsorted.
    assert (forall p, sum_deltas (events_upto p (sort_events (make_events l)))
                      = Z.of_nat (overlap_at l p)) as Hsum.
    { intros p. rewrite <- sum_deltas_make_events by done.
      by apply sum_deltas_Permutation, events_upto_Permutation. }
    assert (forall p, Z.of_nat (overlap_at l p)
                      <= sweep_unbounded 0 0 (sort_events (make_events l)))
      as Hupper.
    { intros p. rewrite <- Hsum. by apply sweep_unbounded_upper. }
    split; [| done].
    destruct (sweep_unbounded_reached (sort_events (make_events l)) Hsorted)
      as [H0 | [p Hp]].
    + rewrite Hperm. apply make_events_unit_delta.
    + exfalso. specialize (Hupper a.1).
      apply Forall_inv in Hvalid as (_ & Hab & _).
      subst l. unfold overlap_at in Hupper. rewrite filter_cons in Hupper.
      case_decide; [| lia]. rewrite H0 in Hupper. cbn [length] in Hupper. lia.
    + exists p. by rewrite <- Hsum.
Qed.

(** C1. When at least one interval is fed to a state, every one of them
    with [int64_t] ends, its start at or before its end and its end below
    [2^63 - 1] (and no more of them than a count of type [int64_t] can hold),
    [Finalize] returns the largest number of intervals, counted with
    multiplicity, that contain a common integer point. *)
Theorem Finalize_maximum_overlap (ivs : list interval) :
  ivs <> [] ->
  Forall valid_interval ivs ->
  Z.of_nat (length ivs) <= INT64_MAX ->
  is_max_overlap ivs (Finalize (accumulate Initialize ivs)).
Proof.
  intros Hne Hvalid Hmax.
  assert (intervals (accumulate Initialize ivs) = ivs) as Hivs.
  { rewrite intervals_accumulate. simpl. clear Hne Hmax.
    induction Hvalid as [| iv ivs (_ & Hiv & _) _ IH]; [done |].
    rewrite filter_cons. unfold row_ok at 1. case_decide; [| lia].
    by f_equal. }
  rewrite (Finalize_Permutation _ (mkState ivs)) by (by rewrite Hivs).
  by apply Finalize_is_max_overlap.
Qed.

Lemma Finalize_maximum_overlap_witness :
  is_max_overlap [(1, 3); (2, 6); (4, 5); (8, 9)]
    (Finalize (accumulate Initialize [(1, 3); (2, 6); (4, 5); (8, 9)])).
Proof.
  apply Finalize_maximum_overlap.
  - done.
  - repeat constructor; simpl; unfold INT64_MIN, INT64_MAX; lia.
  - simpl. unfold INT64_MAX. lia.
Defined.

(** ** days_in_month on TIME *)

(** C10. The function registered in [days_in_month] for one TIME argument
    throws [InvalidInputException] on every chunk of arguments and in every
    expression state, and a call of [days_in_month] with one TIME argument
    runs that function: it never produces a result vector. *)
Theorem days_in_month_time_throws (ExpressionState : Type)
  (Date_MonthDays : Z -> Z -> Z) (Date_Convert : Z -> Z * Z * Z)
  (Timestamp_GetDate : Z -> Z)
  (UnaryExecutor_Execute : (Z -> Z) -> Vector -> nat -> Vector)
  (BinaryExecutor_Execute : (Z -> Z -> Z) -> Vector -> Vector -> nat -> Vector)
  (args : DataChunk) (state : ExpressionState) :
  let set :=
    DaysInMonth.GetFunctions ExpressionState Date_MonthDays Date_Convert
      Timestamp_GetDate UnaryExecutor_Execute BinaryExecutor_Execute in
  let thrown :=
    InvalidInputException
      "days_in_month cannot be used with TIME type - TIME does not contain date information" in
  DaysInMonth.DaysInMonthTimeFunction ExpressionState args state = inl thrown /\
  DaysInMonth.arguments ExpressionState
    <$> DaysInMonth.functions ExpressionState set
    = [[INTEGER; INTEGER]; [DATE]; [TIMESTAMP]; [TIME]] /\
  DaysInMonth.invoke ExpressionState set [TIME] args state = Some (inl thrown).
Proof. repeat split. Qed.

(** * Further properties of the aggregate *)

(** ** The comparator and the sort *)

(** X1. The comparator handed to [std::sort] is a strict total order on
    events: no event is before itself, it is transitive, and of two
    different events one is before the other. *)
Theorem event_less_strict_total_order :
  (forall a : event, event_less a a = false) /\
  (forall a b c : event,
     event_less a b = true -> event_less b c = true -> event_less a c = true) /\
  (forall a b : event,
     event_less a b = true \/ a = b \/ event_less b a = true).
Proof.
  split; [| split].
  - intros a. apply not_true_iff_false. rewrite event_less_spec. lia.
  - intros a b c. rewrite !event_less_spec. lia.
  - intros [p d] [q e]. rewrite !event_less_spec. simpl.
    destruct (Z.lt_trichotomy p q) as [? | [-> | ?]]; [lia | | lia].
    destruct (Z.lt_trichotomy d e) as [? | [-> | ?]]; [lia | | lia].
    right. by left.
Qed.

(** X2. The sorted sequence of events is a permutation of the events, no
    event of it is ordered by the comparator before one of its predecessors,
    and it is the only sequence with these two properties: the outcome of the
    sort does not depend on the sorting algorithm or on its stability. *)
Theorem sort_events_contract (l : list event) :
  sort_events l ≡ₚ l /\
  StronglySorted (fun a b => event_less b a = false) (sort_events l) /\
  (forall s : list event,
     s ≡ₚ l -> StronglySorted (fun a b => event_less b a = false) s ->
     s = sort_events l).
Proof.
  split; [apply sort_events_Permutation |].
  split; [apply sort_events_sorted |].
  intros s. apply sort_events_unique.
Qed.

(** ** The early returns and the range of the result *)

Lemma sort_events_single (iv : interval) :
  iv.1 <= iv.2 -> iv.2 < INT64_MAX -> INT64_MIN <= iv.1 ->
  sort_events (make_events [iv]) = [(iv.1, 1); (iv.2 + 1, -1)].
Proof.
  intros Hle Hmax Hmin. simpl.
  rewrite wrap64_id by (unfold INT64_MIN, INT64_MAX in *; lia).
  assert (event_less (iv.1, 1) (iv.2 + 1, -1) = true) as ->; [| done].
  apply event_less_spec. simpl. lia.
Qed.

(** X3. The two early returns of [Finalize] are shortcuts: on every list of
    valid intervals, also an empty one or one of a single interval, the
    result is the one the sort and the sweep give. *)
Theorem Finalize_early_returns_agree (st : MaxIntersectionsState) :
  Forall valid_interval (intervals st) ->
  Finalize st = sweep 0 0 (sort_events (make_events (intervals st))).
Proof.
  intros Hvalid. unfold Finalize.
  destruct (intervals st) as [| a [| b ivs]]; [done | | done].
  apply Forall_inv in Hvalid as (Hmin & Hle & Hmax).
  by rewrite sort_events_single.
Qed.

Lemma Finalize_early_returns_agree_witness :
  Finalize (mkState [(3, 7)]) =
  sweep 0 0 (sort_events (make_events (intervals (mkState [(3, 7)])))).
Proof.
  apply Finalize_early_returns_agree.
  repeat constructor; simpl; unfold INT64_MIN, INT64_MAX; lia.
Defined.




(** ** Consequences of the sweep computing the largest overlap *)

Lemma is_max_overlap_unique (ivs : list interval) (m m' : Z) :
  is_max_overlap ivs m -> is_max_overlap ivs m' -> m = m'.
Proof.
  intros [[p Hp] Hm] [[p' Hp'] Hm'].
  specialize (Hm p'). specialize (Hm' p). lia.
Qed.

Lemma overlap_at_app (ivs1 ivs2 : list interval) (p : Z) :
  overlap_at (ivs1 ++ ivs2) p = (overlap_at ivs1 p + overlap_at ivs2 p)%nat.
Proof. unfold overlap_at. by rewrite filter_app, length_app. Qed.

(** The largest overlap, for the empty list as well. *)
Lemma Finalize_valid_state (st : MaxIntersectionsState) :
  valid_state st -> is_max_overlap (intervals st) (Finalize st).
Proof.
  intros [Hvalid Hmax]. destruct st as [ivs]. simpl in *.
  destruct ivs as [| a ivs].
  - split; [by exists 0 | done].
  - by apply Finalize_is_max_overlap.
Qed.

(** X5. On a state of valid intervals the result is 0 exactly when the state
    holds no interval. *)
Theorem Finalize_zero_iff_empty (st : MaxIntersectionsState) :
  valid_state st ->
  Finalize st = 0 <-> intervals st = [].
Proof.
  intros Hst. split.
  - intros H0. destruct (Finalize_valid_state st Hst) as [_ Hupper].
    destruct Hst as [Hvalid _]. destruct (intervals st) as [| a ivs]; [done |].
    exfalso. specialize (Hupper a.1).
    apply Forall_inv in Hvalid as (_ & Hle & _).
    unfold overlap_at in Hupper. rewrite filter_cons in Hupper.
    case_decide; [| lia]. rewrite H0 in Hupper. cbn [length] in Hupper. lia.
  - intros Hempty. unfold Finalize. by rewrite Hempty.
Qed.

Lemma Finalize_zero_iff_empty_witness :
  Finalize (mkState [(1, 4); (6, 9)]) = 0 <->
  intervals (mkState [(1, 4); (6, 9)]) = [].
Proof.
  apply Finalize_zero_iff_empty. split.
  - repeat constructor; simpl; unfold INT64_MIN, INT64_MAX; lia.
  - simpl. unfold INT64_MAX. lia.
Defined.

(** X6. Feeding one more valid interval to a state of valid intervals never
    lowers the result and raises it by at most 1. *)
Theorem Finalize_Operation_step (st : MaxIntersectionsState) (left right : Z) :
  valid_state st ->
  valid_interval (left, right) ->
  Z.of_nat (length (intervals st)) < INT64_MAX ->
  Finalize st <= Finalize (Operation st left right) <= Finalize st + 1.
Proof.
  intros Hst Hiv Hroom.
  assert (intervals (Operation st left right) = intervals st ++ [(left, right)])
    as Hivs.
  { unfold Operation. destruct Hiv as (_ & Hle & _). simpl in Hle.
    destruct (Z.leb_spec left right); [done | lia]. }
  assert (valid_state (Operation st left right)) as Hst'.
  { destruct Hst as [Hvalid _]. split; rewrite Hivs.
    - apply Forall_app. split; [done | by constructor].
    - rewrite length_app. simpl. lia. }
  destruct (Finalize_valid_state _ Hst) as [[p Hp] Hupper].
  destruct (Finalize_valid_state _ Hst') as [[p' Hp'] Hupper'].
  rewrite Hivs in Hp', Hupper'.
  specialize (Hupper p'). specialize (Hupper' p).
  rewrite overlap_at_app in Hp', Hupper'.
  pose proof (overlap_at_le_length [(left, right)] p') as Hone.
  simpl in Hone. lia.
Qed.

Lemma Finalize_Operation_step_witness :
  Finalize (mkState [(1, 4); (6, 9)])
  <= Finalize (Operation (mkState [(1, 4); (6, 9)]) 3 7)
  <= Finalize (mkState [(1, 4); (6, 9)]) + 1.
Proof.
  apply Finalize_Operation_step.
  - split.
    + repeat constructor; simpl; unfold INT64_MIN, INT64_MAX; lia.
    + simpl. unfold INT64_MAX. lia.
  - repeat split; simpl; unfold INT64_MIN, INT64_MAX; lia.
  - simpl. unfold INT64_MAX. lia.
Defined.

(** X7. Merging two states of valid intervals gives a result that is at least
    the result of each of them and at most the sum of the two. *)
Theorem Finalize_Combine_bounds (source target : MaxIntersectionsState) :
  valid_state source ->
  valid_state target ->
  Z.of_nat (length (intervals source) + length (intervals target)) <= INT64_MAX ->
  Z.max (Finalize source) (Finalize target)
  <= Finalize (Combine source target)
  <= Finalize source + Finalize target.
Proof.
  intros Hs Ht Hroom.
  assert (valid_state (Combine source target)) as Hst.
  { destruct Hs as [Hvs _], Ht as [Hvt _].
    split; rewrite intervals_Combine.
    - apply Forall_app. done.
    - rewrite length_app. lia. }
  destruct (Finalize_valid_state _ Hs) as [[ps Hps] Hus].
  destruct (Finalize_valid_state _ Ht) as [[pt Hpt] Hut].
  destruct (Finalize_valid_state _ Hst) as [[p Hp] Hu].
  rewrite intervals_Combine in Hp, Hu.
  pose proof (Hu ps) as Hups. pose proof (Hu pt) as Hupt.
  specialize (Hus p). specialize (Hut p).
  rewrite overlap_at_app in Hp, Hups, Hupt. lia.
Qed.

Lemma Finalize_Combine_bounds_witness :
  Z.max (Finalize (mkState [(1, 4); (2, 3)])) (Finalize (mkState [(3, 8)]))
  <= Finalize (Combine (mkState [(1, 4); (2, 3)]) (mkState [(3, 8)]))
  <= Finalize (mkState [(1, 4); (2, 3)]) + Finalize (mkState [(3, 8)]).
Proof.
  apply Finalize_Combine_bounds.
  - split.
    + repeat constructor; simpl; unfold INT64_MIN, INT64_MAX; lia.
    + simpl. unfold INT64_MAX. lia.
  - split.
    + repeat constructor; simpl; unfold INT64_MIN, INT64_MAX; lia.
    + simpl. unfold INT64_MAX. lia.
  - simpl. unfold INT64_MAX. lia.
Defined.

Lemma Finalize_common_point_list (ivs : list interval) (p : Z) :
  Forall valid_interval ivs ->
  Z.of_nat (length ivs) <= INT64_MAX ->
  Forall (fun iv : interval => iv.1 <= p <= iv.2) ivs ->
  Finalize (mkState ivs) = Z.of_nat (length ivs).
Proof.
  intros Hvalid Hmax Hp.
  destruct (Finalize_valid_state (mkState ivs)) as [[q Hq] Hupper]; [done |].
  simpl in *. specialize (Hupper p).
  pose proof (overlap_at_le_length ivs q) as Hlen.
  assert (overlap_at ivs p = length ivs) as Hall.
  { unfold overlap_at. clear -Hp. induction Hp as [| iv ivs Hiv _ IH]; [done |].
    rewrite filter_cons. case_decide; [| done]. simpl. by rewrite IH. }
  lia.
Qed.

(** X8. When all the intervals of a state of valid intervals contain one
    common point, the result is the number of intervals: equal intervals are
    counted once each. *)
Theorem Finalize_common_point (st : MaxIntersectionsState) (p : Z) :
  valid_state st ->
  Forall (fun iv : interval => iv.1 <= p <= iv.2) (intervals st) ->
  Finalize st = Z.of_nat (length (intervals st)).
Proof.
  intros [Hvalid Hmax] Hp. destruct st as [ivs].
  by apply (Finalize_common_point_list ivs p).
Qed.

Lemma Finalize_common_point_witness :
  Finalize (mkState [(1, 5); (5, 10); (5, 5); (1, 5)])
  = Z.of_nat (length (intervals (mkState [(1, 5); (5, 10); (5, 5); (1, 5)]))).
Proof.
  apply (Finalize_common_point _ 5).
  - split.
    + repeat constructor; simpl; unfold INT64_MIN, INT64_MAX; lia.
    + simpl. unfold INT64_MAX. lia.
  - repeat constructor; simpl; lia.
Defined.

Lemma state_eq (s t : MaxIntersectionsState) :
  intervals s = intervals t -> s = t.
Proof. destruct s, t. simpl. by intros ->. Qed.

Lemma intervals_ConstantOperation (st : MaxIntersectionsState) (left right : Z)
  (n : nat) :
  intervals (ConstantOperation st left right n) =
  intervals st ++ replicate (if left <=? right then n else 0) (left, right).
Proof.
  unfold ConstantOperation. destruct (left <=? right); simpl.
  - apply emplace_back_loop_replicate.
  - by rewrite app_nil_r.
Qed.

(** X9. A constant batch of [n] copies of a valid interval fed to a fresh
    state finalizes to [n]. *)
Theorem Finalize_ConstantOperation_count (left right : Z) (n : nat) :
  valid_interval (left, right) ->
  Z.of_nat n <= INT64_MAX ->
  Finalize (ConstantOperation Initialize left right n) = Z.of_nat n.
Proof.
  intros Hiv Hn.
  assert (intervals (ConstantOperation Initialize left right n)
          = replicate n (left, right)) as Hivs.
  { rewrite intervals_ConstantOperation. simpl.
    destruct Hiv as (_ & Hle & _). simpl in Hle.
    by destruct (Z.leb_spec left right); [| lia]. }
  rewrite (Finalize_Permutation _ (mkState (replicate n (left, right))))
    by (by rewrite Hivs).
  rewrite (Finalize_common_point_list _ left).
  - by rewrite length_replicate.
  - by apply Forall_replicate.
  - by rewrite length_replicate.
  - apply Forall_replicate. destruct Hiv as (_ & Hle & _). simpl in *. lia.
Qed.

Lemma Finalize_ConstantOperation_count_witness :
  Finalize (ConstantOperation Initialize 2 5 100) = Z.of_nat 100.
Proof.
  apply Finalize_ConstantOperation_count.
  - repeat split; simpl; unfold INT64_MIN, INT64_MAX; lia.
  - unfold INT64_MAX. lia.
Defined.

(** X10. Merging is associative on states: merging a first state into a
    second and the second into a third leaves in the third what merging the
    second into the third and then the first into the third leaves.  Swapping
    source and target changes the order of the intervals only, so the
    finalized result is the same. *)
Theorem Combine_assoc_comm (a b c : MaxIntersectionsState) :
  Combine (Combine a b) c = Combine a (Combine b c) /\
  intervals (Combine a b) ≡ₚ intervals (Combine b a) /\
  Finalize (Combine a b) = Finalize (Combine b a).
Proof.
  split; [| split].
  - apply state_eq. rewrite !intervals_Combine. by rewrite app_assoc.
  - rewrite !intervals_Combine. apply Permutation_app_comm.
  - apply Finalize_Permutation. rewrite !intervals_Combine.
    apply Permutation_app_comm.
Qed.

(** X11. [ConstantOperation] appends [count] copies of a valid interval and
    nothing for an invalid one; two constant batches of the same interval
    fed one after the other leave what one batch of the two counts together
    leaves. *)
Theorem ConstantOperation_counts_add (st : MaxIntersectionsState)
  (left right : Z) (n m : nat) :
  intervals (ConstantOperation st left right n) =
    intervals st ++ replicate (if left <=? right then n else 0) (left, right) /\
  ConstantOperation (ConstantOperation st left right n) left right m =
    ConstantOperation st left right (n + m).
Proof.
  split; [apply intervals_ConstantOperation |].
  apply state_eq. rewrite !intervals_ConstantOperation.
  destruct (left <=? right); simpl.
  - by rewrite replicate_add, app_assoc.
  - by rewrite !app_nil_r.
Qed.

(** X12. A group of rows that all have [left > right] leaves the state it is
    fed to as it was; fed to a fresh state, the group finalizes to 0. *)
Theorem accumulate_invalid_rows (st : MaxIntersectionsState)
  (rows : list (Z * Z)) :
  Forall (fun row : Z * Z => row.1 > row.2) rows ->
  accumulate st rows = st /\ Finalize (accumulate Initialize rows) = 0.
Proof.
  intros Hrows.
  assert (forall s, accumulate s rows = s) as Hsame.
  { intros s. apply state_eq. rewrite intervals_accumulate.
    assert (filter row_ok rows = []) as ->; [| by rewrite app_nil_r].
    clear -Hrows. induction Hrows as [| row rows Hrow _ IH]; [done |].
    rewrite filter_cons. unfold row_ok at 1. case_decide; [lia | done]. }
  split; [apply Hsame |]. by rewrite Hsame.
Qed.

Lemma accumulate_invalid_rows_witness :
  accumulate (mkState [(1, 2)]) [(5, 1); (0, -3)] = mkState [(1, 2)] /\
  Finalize (accumulate Initialize [(5, 1); (0, -3)]) = 0.
Proof.
  apply accumulate_invalid_rows. repeat constructor; simpl; lia.
Defined.

Lemma overlap_at_shift (k p : Z) (ivs : list interval) :
  overlap_at (shift_interval k <$> ivs) (p + k) = overlap_at ivs p.
Proof.
  unfold overlap_at. induction ivs as [| iv ivs IH]; [done |].
  rewrite fmap_cons, !filter_cons. unfold shift_interval at 1. simpl.
  repeat case_decide; simpl; solve [by rewrite IH | lia].
Qed.

(** X13. Moving every interval by the same amount does not change the
    result, as long as the moved intervals are valid as well. *)
Theorem Finalize_shift (k : Z) (st : MaxIntersectionsState) :
  valid_state st ->
  Forall valid_interval (shift_interval k <$> intervals st) ->
  Finalize (mkState (shift_interval k <$> intervals st)) = Finalize st.
Proof.
  intros Hst Hshift.
  assert (valid_state (mkState (shift_interval k <$> intervals st))) as Hst'.
  { split; [done |]. simpl. rewrite length_fmap. apply Hst. }
  pose proof (Finalize_valid_state _ Hst') as Hmax'. simpl in Hmax'.
  destruct (Finalize_valid_state _ Hst) as [[p Hp] Hupper].
  apply (is_max_overlap_unique _ _ _ Hmax'). split.
  - exists (p + k). by rewrite overlap_at_shift.
  - intros q. replace q with ((q - k) + k) by lia.
    rewrite overlap_at_shift. apply Hupper.
Qed.

Lemma Finalize_shift_witness :
  Finalize (mkState (shift_interval (-7) <$> intervals (mkState [(1, 5); (5, 10)])))
  = Finalize (mkState [(1, 5); (5, 10)]).
Proof.
  apply Finalize_shift.
  - split.
    + repeat constructor; simpl; unfold INT64_MIN, INT64_MAX; lia.
    + simpl. unfold INT64_MAX. lia.
  - repeat constructor; simpl; unfold INT64_MIN, INT64_MAX; lia.
Defined.

(** The result of the sweep over a sorted sequence is 0 or the sum of the
    events at or before the position of a start event of the sequence. *)
Lemma sweep_unbounded_reached_start (s : list event) :
  StronglySorted event_le s ->
  Forall unit_delta s ->
  sweep_unbounded 0 0 s = 0 \/
  exists ev, ev ∈ s /\ ev.2 = 1 /\
             sum_deltas (events_upto ev.1 s) = sweep_unbounded 0 0 s.
Proof.
  intros Hs Hunit.
  destruct (sweep_unbounded_attained s 0 0 Hunit ltac:(lia))
    as [H0 | (l1 & ev & l2 & Heq & Hev & Hsum)]; [by left |].
  right. exists ev. split; [subst s; set_solver |]. split; [done |].
  pose proof (sweep_unbounded_upper ev.1 s Hs) as Hupper.
  rewrite <- Hsum in *. subst s.
  apply StronglySorted_app in Hs as (Hcross & _ & Htail).
  apply StronglySorted_cons in Htail as [Hl2 _].
  unfold events_upto in *. rewrite filter_app in *.
  fold (events_upto ev.1 l1) in *. rewrite events_upto_all in *.
  2, 3: apply Forall_forall; intros x Hx;
    specialize (Hcross x ev Hx ltac:(left));
    apply event_le_spec in Hcross; lia.
  rewrite filter_cons in *. case_decide; [| lia].
  rewrite sum_deltas_app in *. simpl in *.
  assert (0 <= sum_deltas (filter (fun x : event => x.1 <= ev.1) l2)).
  { apply sum_deltas_nonneg, Forall_forall. intros x Hx.
    apply list_elem_of_filter in Hx as [Hpos Hx].
    rewrite Forall_forall in Hl2. specialize (Hl2 x Hx).
    apply event_le_spec in Hl2. lia. }
  lia.
Qed.

Lemma make_events_start (ev : event) (ivs : list interval) :
  ev ∈ make_events ivs -> ev.2 = 1 -> exists iv, iv ∈ ivs /\ iv.1 = ev.1.
Proof.
  induction ivs as [| iv ivs IH]; simpl; intros Hin Hev.
  - by apply elem_of_nil in Hin.
  - apply elem_of_cons in Hin as [-> | Hin].
    { exists iv. split; [by left | done]. }
    apply elem_of_cons in Hin as [-> | Hin]; [simpl in Hev; lia |].
    destruct (IH Hin Hev) as (iv' & Hiv' & Heq).
    exists iv'. split; [by right | done].
Qed.

(** X14. On a non-empty state of valid intervals the result is the number of
    intervals over the start of one of the stored intervals: the largest
    overlap is reached where an interval begins. *)
Theorem Finalize_reached_at_start (st : MaxIntersectionsState) :
  valid_state st ->
  intervals st <> [] ->
  exists iv, iv ∈ intervals st /\
             Z.of_nat (overlap_at (intervals st) iv.1) = Finalize st.
Proof.
  intros [Hvalid Hmax] Hne. destruct st as [ivs]. simpl in *.
  destruct ivs as [| a [| b ivs]]; [done | |].
  - exists a. split; [by left |].
    apply Forall_inv in Hvalid as (_ & Hle & _).
    unfold overlap_at. rewrite filter_cons. by case_decide; [| lia].
  - set (l := a :: b :: ivs) in *.
    rewrite Finalize_sweep_unbounded by (done || simpl; lia).
    pose proof (sort_events_Permutation (make_events l)) as Hperm.
    destruct (sweep_unbounded_reached_start (sort_events (make_events l)))
      as [H0 | (ev & Hin & Hev & Hsum)].
    + apply sort_events_sorted.
    + rewrite Hperm. apply make_events_unit_delta.
    + exfalso.
      pose proof (sweep_unbounded_upper a.1 _
                    (sort_events_sorted (make_events l))) as Hupper.
      rewrite (sum_deltas_Permutation _ _
                 (events_upto_Permutation a.1 _ _ Hperm)) in Hupper.
      rewrite sum_deltas_make_events in Hupper by done.
      apply Forall_inv in Hvalid as (_ & Hle & _).
      subst l. unfold overlap_at in Hupper. rewrite filter_cons in Hupper.
      case_decide; [| lia]. rewrite H0 in Hupper. cbn [length] in Hupper. lia.
    + rewrite Hperm in Hin.
      destruct (make_events_start ev l Hin Hev) as (iv & Hiv & Heq).
      exists iv. split; [done |]. rewrite Heq, <- Hsum.
      rewrite (sum_deltas_Permutation _ _
                 (events_upto_Permutation ev.1 _ _ Hperm)).
      by rewrite sum_deltas_make_events.
Qed.

Lemma Finalize_reached_at_start_witness :
  exists iv, iv ∈ intervals (mkState [(1, 3); (2, 6); (4, 5)]) /\
             Z.of_nat (overlap_at (intervals (mkState [(1, 3); (2, 6); (4, 5)])) iv.1)
             = Finalize (mkState [(1, 3); (2, 6); (4, 5)]).
Proof.
  apply Finalize_reached_at_start.
  - split.
    + repeat constructor; simpl; unfold INT64_MIN, INT64_MAX; lia.
    + simpl. unfold INT64_MAX. lia.
  - done.
Defined.

(** ** Calls on references *)

Lemma exec_call_frame (c : call) (h h' : store) (a : addr) :
  exec_call c h = Some h' -> call_writes c <> a -> h' !! a = h !! a.
Proof.
  intros Hexec Hne. destruct c as [b | b | b l r | b l r n | s t];
    simpl in Hexec, Hne.
  - simplify_eq. by rewrite lookup_insert_ne.
  - destruct (h !! b); simplify_eq. by rewrite lookup_delete_ne.
  - destruct (h !! b); simplify_eq. by rewrite lookup_insert_ne.
  - destruct (h !! b); simplify_eq. by rewrite lookup_insert_ne.
  - destruct (h !! s); [| done]. destruct (h !! t); [| done].
    destruct (_ && _); simplify_eq. by rewrite lookup_insert_ne.
Qed.

(** X15. A sequence of calls changes no state other than those the calls
    write: a state that is the [state] of none of the calls and the [target]
    of no [Combine] is after the calls what it was before, also when it was
    the source of merges. *)
Theorem exec_calls_frame (cs : list call) (h h' : store) (a : addr) :
  exec_calls cs h = Some h' ->
  Forall (fun c => call_writes c <> a) cs ->
  h' !! a = h !! a.
Proof.
  intros Hexec Hcs. revert h Hexec.
  induction Hcs as [| c cs Hc _ IH]; intros h Hexec; simpl in Hexec.
  - by simplify_eq.
  - destruct (exec_call c h) as [h1 |] eqn:Hcall; [| done].
    rewrite (IH h1 Hexec). by eapply exec_call_frame.
Qed.

Lemma exec_calls_frame_witness :
  (<[2%N := mkState [(4, 4); (4, 4); (2, 5)]]>
     (<[1%N := mkState [(2, 5)]]> (∅ : store))) !! 1%N
  = (<[2%N := Initialize]> (<[1%N := mkState [(2, 5)]]> (∅ : store))) !! 1%N.
Proof.
  apply (exec_calls_frame
           [CallConstantOperation 2%N 4 4 2; CallOperation 2%N 8 1;
            CallCombine 1%N 2%N]).
  - vm_compute. reflexivity.
  - repeat constructor; simpl; lia.
Defined.

(** ** days_in_month on dates and timestamps *)


